(** * Explicit Euler integration of the harmonic oscillator

    Shallow embedding of the computational cells of
    [Module04-intro_to_integrators_lecture_notes.ipynb]:

    - code cell 4: the time grid [t = np.linspace(0, 2*np.pi, N)] and the
      analytic solution [x], [y] sampled on it;
    - code cell 8: the step size [h = t[-1]/t.size] and the in-place Euler
      loop over the arrays [xE], [yE].

    NumPy arrays are lists read with stdpp's lookup and written with
    stdpp's insert behind an explicit bounds check (an out-of-range index
    raises [IndexError] in Python, modelled by [None]).  The arithmetic of
    the loop is kept abstract behind the interface [Arith], so that the
    structural results hold for any number type; the algebraic results are
    proved for the instance of exact real numbers. *)

From Stdlib Require Import PrimFloat Uint63.
From Stdlib Require Import Reals Lra Lia.
From stdpp Require Import base option list.

Set Default Proof Using "Type".

(** ** The arithmetic the cells use *)

(** The operations cell 8 applies to array elements: [+], [-], [*], [/],
    the integer power [**] and the conversion of an array size. *)
Class Arith (T : Type) := {
  add : T → T → T;
  sub : T → T → T;
  mul : T → T → T;
  div : T → T → T;
  pow : T → nat → T;
  of_nat : nat → T
}.

(** Exact real numbers. *)
#[export] Instance R_arith : Arith R := {|
  add := Rplus; sub := Rminus; mul := Rmult; div := Rdiv;
  pow := Rpow_def.pow; of_nat := INR
|}.

(** ** Arrays *)

Section Arrays.
Context {T : Type}.

(** [a[i]] for a non-negative index [i]. *)
Definition getitem (a : list T) (i : nat) : option T := a !! i.

(** [a[i] = v] for a non-negative index [i]: [IndexError] out of range. *)
Definition setitem (a : list T) (i : nat) (v : T) : option (list T) :=
  if decide (i < length a) then Some (<[i:=v]> a) else None.

(** [a[-1]]. *)
Definition getlast (a : list T) : option T := last a.

(** [a[:-1]]. *)
Definition droplast (a : list T) : list T := take (length a - 1) a.

(** [enumerate(a)], counting from [i]. *)
Fixpoint enumerate_from (i : nat) (a : list T) : list (nat * T) :=
  match a with
  | [] => []
  | v :: a' => (i, v) :: enumerate_from (S i) a'
  end.

Definition enumerate (a : list T) : list (nat * T) := enumerate_from 0 a.

(** [np.empty_like(a)]: an array of the shape of [a] whose contents are
    whatever the allocator left there, [junk i] in slot [i]. *)
Definition empty_like (junk : nat → T) (a : list T) : list T :=
  imap (λ i _, junk i) a.
End Arrays.

(** ** Code cell 8 *)

(** The two arrays the loop writes. *)
Record store (T : Type) := Store { xE : list T; yE : list T }.
Arguments Store {T} _ _.
Arguments xE {T} _.
Arguments yE {T} _.

Section Euler.
Context {T : Type} `{Arith T}.

(** The loop body, statement by statement and read by read:
<<
  xE[k+1] = xE[k] + h * yE[k]
  yE[k+1] = yE[k] - h * omega**2 * xE[k]
>>
    The second statement reads [xE[k]] from the array the first one has
    already written to. *)
Definition body (h omega : T) (k : nat) (s : store T) : option (store T) :=
  xk ← getitem (xE s) k;
  yk ← getitem (yE s) k;
  xE1 ← setitem (xE s) (k + 1) (add xk (mul h yk));
  let s1 := Store xE1 (yE s) in
  yk' ← getitem (yE s1) k;
  xk' ← getitem (xE s1) k;
  yE1 ← setitem (yE s1) (k + 1) (sub yk' (mul (mul h (pow omega 2)) xk'));
  Some (Store (xE s1) yE1).

(** [for k,tk in enumerate(t[:-1]): body] *)
Fixpoint for_loop (h omega : T) (ks : list (nat * T)) (s : store T)
  : option (store T) :=
  match ks with
  | [] => Some s
  | (k, _) :: ks' => s' ← body h omega k s; for_loop h omega ks' s'
  end.

(** Cell 8 after its first line, for a given step size [h]:
<<
  xE = np.empty_like(x)
  yE = np.empty_like(y)
  xE[0] = x[0]
  yE[0] = y[0]
  for k,tk in enumerate(t[:-1]): ...
>>
*)
Definition euler_loop (jx jy : nat → T) (h omega : T) (x y t : list T)
  : option (store T) :=
  let xE0 := empty_like jx x in
  let yE0 := empty_like jy y in
  x0 ← getitem x 0;
  xE1 ← setitem xE0 0 x0;
  y0 ← getitem y 0;
  yE1 ← setitem yE0 0 y0;
  for_loop h omega (enumerate (droplast t)) (Store xE1 yE1).

(** The first line of cell 8, [h = t[-1]/t.size]. *)
Definition step_size (t : list T) : option T :=
  tN ← getlast t; Some (div tN (of_nat (length t))).

(** The whole of cell 8. *)
Definition cell8 (jx jy : nat → T) (omega : T) (x y t : list T)
  : option (store T) :=
  h ← step_size t; euler_loop jx jy h omega x y t.

(** The [k]-th sample of a trajectory, [(xE[k], yE[k])]. *)
Definition sample (s : store T) (k : nat) : option (T * T) :=
  xk ← getitem (xE s) k; yk ← getitem (yE s) k; Some (xk, yk).

(** *** The Euler step of the specification

    The map of section 4.1 of the specification,
    [x' = x + h·y], [y' = y − h·ω²·x], as a pure function on states. *)
Definition spec_euler_step (h omega : T) (s : T * T) : T * T :=
  (add s.1 (mul h s.2), sub s.2 (mul (mul h (pow omega 2)) s.1)).

(** [n]-fold application of the specification's step. *)
Definition spec_iterate (h omega : T) (n : nat) (s : T * T) : T * T :=
  Nat.iter n (spec_euler_step h omega) s.

(** The trajectory of the specification's generator (section 4.2): the
    initial state followed by its successive images under the step, [N]
    samples in all, as the pair of arrays of positions and velocities. *)
Definition spec_trajectory (h omega : T) (N : nat) (s0 : T * T) : store T :=
  Store ((λ k, (spec_iterate h omega k s0).1) <$> seq 0 N)
        ((λ k, (spec_iterate h omega k s0).2) <$> seq 0 N).

(** *** A scalar rewrite of the loop body

    The body written with two scalar variables updated one after the
    other, [x = x + h*y; y = y - h*omega**2*x]: the second statement
    sees the new [x]. *)
Definition scalar_body (h omega : T) (s : T * T) : T * T :=
  let x1 := add s.1 (mul h s.2) in
  (x1, sub s.2 (mul (mul h (pow omega 2)) x1)).
End Euler.

(** ** Code cell 4 *)

Section Grid.
Context {T : Type} `{Arith T}.

(** [np.linspace(start, stop, num)] with the default [endpoint=True]:
    [arange(0, num) * step + start] with [step = (stop - start)/(num - 1)],
    the last sample then set to [stop]; for [num = 1] the only sample is
    [0 * (stop - start) + start].  (NumPy's separate path for a step that
    rounds to zero is left out: it computes the same samples in exact
    arithmetic and is not taken for [stop - start = 2*pi].) *)
Definition linspace (start stop : T) (num : nat) : list T :=
  let dv := num - 1 in
  let delta := sub stop start in
  let step := if decide (0 < dv) then div delta (of_nat dv) else delta in
  let y := (λ i, add (mul (of_nat i) step) start) <$> seq 0 num in
  if decide (1 < num) then <[num - 1 := stop]> y else y.
End Grid.

(** The constants and arrays of cell 4, over the real numbers:
<<
    t = np.linspace(start=0, stop=2*np.pi, num=N)
    x = A * np.cos(omega * t + phi)
    y = -A * omega * np.sin(omega * t + phi)
>>
*)
Definition time_grid (N : nat) : list R := linspace 0%R (2 * PI)%R N.

Definition analytic_x (A omega phi : R) (t : list R) : list R :=
  (λ tk, A * cos (omega * tk + phi))%R <$> t.

Definition analytic_y (A omega phi : R) (t : list R) : list R :=
  (λ tk, - A * omega * sin (omega * tk + phi))%R <$> t.

(** The two expressions cell 4 evaluates at each grid time [u]. *)
Definition x_at (A omega phi u : R) : R := (A * cos (omega * u + phi))%R.
Definition y_at (A omega phi u : R) : R := (- A * omega * sin (omega * u + phi))%R.

(** Cells 4 and 8 run one after the other for given [omega], [A], [phi]
    and [N]. *)
Definition run_cells (jx jy : nat → R) (omega A phi : R) (N : nat)
  : option (store R) :=
  let t := time_grid N in
  cell8 jx jy omega (analytic_x A omega phi t) (analytic_y A omega phi t) t.

(** The notebook as written: [omega = 1], [A = 1.0], [phi = 0.0],
    [N = 100]. *)
Definition notebook (jx jy : nat → R) : option (store R) :=
  run_cells jx jy 1%R 1%R 0%R 100.

(** ** Norms of a state *)

(** Euclidean norm of a state. *)
Definition norm (s : R * R) : R := sqrt (s.1 * s.1 + s.2 * s.2)%R.

(** Norm weighted by the frequency, [sqrt (ω²x² + y²)]: twice the
    oscillator's energy under the square root. *)
Definition wnorm (omega : R) (s : R * R) : R :=
  sqrt (omega * omega * (s.1 * s.1) + s.2 * s.2)%R.

(** The modulus [sqrt (1 + h²ω²)] of the eigenvalues [1 ± ihω] of the
    update matrix of the loop body. *)
Definition growth_factor (h omega : R) : R :=
  sqrt (1 + h * h * (omega * omega))%R.

(** ** IEEE-754 binary64, the element type of the notebook's arrays *)

#[export] Instance float_arith : Arith float := {|
  add := PrimFloat.add; sub := PrimFloat.sub; mul := PrimFloat.mul;
  div := PrimFloat.div;
  pow := λ x n, Nat.iter n (PrimFloat.mul x) 1%float;
  of_nat := λ n, PrimFloat.of_uint63 (Uint63.of_Z (Z.of_nat n))
|}.

(** [2*np.pi] in binary64. *)
Definition two_pi_f : float := (2 * 0x1.921fb54442d18p+1)%float.

Definition time_grid_f (N : nat) : list float := linspace 0%float two_pi_f N.

(** * Properties *)

(** ** Arrays *)

Section ArrayFacts.
Context {T : Type}.
Implicit Types (a : list T) (i k : nat) (v : T).

Lemma length_empty_like (junk : nat → T) a :
  length (empty_like junk a) = length a.
Proof. unfold empty_like. apply length_imap. Qed.

Lemma setitem_Some a i v : i < length a → setitem a i v = Some (<[i:=v]> a).
Proof. intros Hi. unfold setitem. case_decide; [done | lia]. Qed.

Lemma setitem_None a i v : length a ≤ i → setitem a i v = None.
Proof. intros Hi. unfold setitem. case_decide; [lia | done]. Qed.

Lemma length_droplast a : length (droplast a) = length a - 1.
Proof. unfold droplast. rewrite length_take. lia. Qed.

Lemma length_enumerate_from i a : length (enumerate_from i a) = length a.
Proof. revert i. induction a as [|v a IH]; intros i; simpl; [done|]. by rewrite IH. Qed.

Lemma length_enumerate a : length (enumerate a) = length a.
Proof. apply length_enumerate_from. Qed.

Lemma getlast_Some a : 0 < length a → ∃ v, getlast a = Some v.
Proof.
  intros Hlen. unfold getlast. destruct (last a) as [v|] eqn:E; [eauto|].
  apply last_None in E. subst a. simpl in Hlen. lia.
Qed.
End ArrayFacts.

(** ** The loop, for any arithmetic *)

Section EulerFacts.
Context {T : Type} `{Arith T}.
Implicit Types (h omega : T) (s : store T) (p : T * T) (x y t : list T).

Lemma iterate_0 h omega p : spec_iterate h omega 0 p = p.
Proof. reflexivity. Qed.

Lemma iterate_S h omega n p :
  spec_iterate h omega (S n) p = spec_euler_step h omega (spec_iterate h omega n p).
Proof. reflexivity. Qed.

Lemma iterate_S_r h omega n p :
  spec_iterate h omega (S n) p = spec_iterate h omega n (spec_euler_step h omega p).
Proof. unfold spec_iterate. apply Nat.iter_succ_r. Qed.

Lemma sample_Some s k xk yk :
  xE s !! k = Some xk → yE s !! k = Some yk → sample s k = Some (xk, yk).
Proof. intros Hx Hy. unfold sample, getitem. by rewrite Hx, Hy. Qed.

Lemma sample_inv s k p :
  sample s k = Some p → xE s !! k = Some p.1 ∧ yE s !! k = Some p.2.
Proof.
  unfold sample, getitem. intros Hs.
  destruct (xE s !! k) as [xk|]; simpl in Hs; [|done].
  destruct (yE s !! k) as [yk|]; simpl in Hs; [|done].
  by simplify_eq.
Qed.

(** One run of the body writes slot [k+1] of both arrays with the image
    of the state in slot [k], and nothing else. *)
Lemma body_Some h omega k s xk yk :
  xE s !! k = Some xk → yE s !! k = Some yk →
  k + 1 < length (xE s) → k + 1 < length (yE s) →
  body h omega k s =
    Some (Store (<[k + 1 := (spec_euler_step h omega (xk, yk)).1]> (xE s))
                (<[k + 1 := (spec_euler_step h omega (xk, yk)).2]> (yE s))).
Proof.
  intros Hx Hy Hlx Hly. unfold body, getitem.
  rewrite Hx. simpl. rewrite Hy. simpl.
  rewrite setitem_Some by done. simpl. rewrite ?Hy. simpl.
  rewrite list_lookup_insert_ne by lia. rewrite Hx. simpl.
  rewrite setitem_Some by done. done.
Qed.

(** Invariant of the loop started at index [i] on a store whose slot [i]
    holds the state [p]: it ends, slot [i+j] then holds the [j]-th image
    of [p], and the slots outside [i .. i + length a] are as before. *)
Lemma for_loop_spec h omega (a : list T) : ∀ i s p,
  sample s i = Some p →
  i + length a < length (xE s) → i + length a < length (yE s) →
  ∃ s', for_loop h omega (enumerate_from i a) s = Some s'
      ∧ length (xE s') = length (xE s) ∧ length (yE s') = length (yE s)
      ∧ (∀ j, j ≤ length a → sample s' (i + j) = Some (spec_iterate h omega j p))
      ∧ (∀ j, j < i ∨ i + length a < j →
              xE s' !! j = xE s !! j ∧ yE s' !! j = yE s !! j).
Proof.
  induction a as [|v a IH]; intros i s p Hp Hlx Hly; simpl in *.
  - exists s. repeat split; try done.
    intros j Hj. assert (j = 0) as -> by lia. by rewrite Nat.add_0_r.
  - apply sample_inv in Hp as [Hx Hy]. destruct p as [xk yk]; simpl in *.
    rewrite (body_Some h omega i s xk yk) by (done || lia). simpl.
    set (s1 := Store _ _).
    destruct (IH (S i) s1 (spec_euler_step h omega (xk, yk))) as (s' & Hrun & Hlx' & Hly' & Hin & Hout).
    { apply sample_Some; unfold s1; simpl; replace (S i) with (i + 1) by lia;
        apply list_lookup_insert_eq; lia. }
    { unfold s1; simpl. rewrite length_insert. lia. }
    { unfold s1; simpl. rewrite length_insert. lia. }
    exists s'. split; [done|]. unfold s1 in *; simpl in *.
    rewrite length_insert in Hlx', Hly'. repeat split; try done.
    + intros [|j] Hj.
      * rewrite Nat.add_0_r. destruct (Hout i) as [Hx' Hy']; [lia|].
        rewrite list_lookup_insert_ne in Hx', Hy' by lia.
        apply sample_Some; congruence.
      * rewrite iterate_S_r. replace (i + S j) with (S i + j) by lia.
        apply Hin. lia.
    + destruct (Hout j) as [Hx' _]; [lia|].
      rewrite list_lookup_insert_ne in Hx' by lia. done.
    + destruct (Hout j) as [_ Hy']; [lia|].
      rewrite list_lookup_insert_ne in Hy' by lia. done.
Qed.
End EulerFacts.

Section GeneratorFacts.
Context {T : Type} `{Arith T}.
Implicit Types (h omega : T) (s : store T) (p : T * T).
Implicit Types (jx jy : nat → T).

(** The loop of cell 8 on arrays of one common length ends, and slot [k]
    of its result holds the [k]-th image of [(x[0], y[0])]. *)
Lemma euler_loop_spec jx jy h omega (x y t : list T) (x0 y0 : T) :
  x !! 0 = Some x0 → y !! 0 = Some y0 →
  length x = length t → length y = length t →
  ∃ s, euler_loop jx jy h omega x y t = Some s
     ∧ length (xE s) = length t ∧ length (yE s) = length t
     ∧ ∀ k, k < length t → sample s k = Some (spec_iterate h omega k (x0, y0)).
Proof.
  intros Hx Hy Hlx Hly.
  assert (0 < length t) as Hpos by (apply lookup_lt_Some in Hx; lia).
  unfold euler_loop, getitem. rewrite Hx. simpl.
  rewrite setitem_Some by (rewrite length_empty_like; lia). simpl.
  rewrite Hy. simpl.
  rewrite setitem_Some by (rewrite length_empty_like; lia). simpl.
  set (s0 := Store _ _).
  destruct (for_loop_spec h omega (droplast t) 0 s0 (x0, y0))
    as (s & Hrun & Hlx' & Hly' & Hin & _).
  - apply sample_Some; unfold s0; simpl; apply list_lookup_insert_eq;
      rewrite length_empty_like; lia.
  - unfold s0; simpl. rewrite length_insert, length_empty_like, length_droplast. lia.
  - unfold s0; simpl. rewrite length_insert, length_empty_like, length_droplast. lia.
  - exists s. unfold s0 in *; simpl in *.
    rewrite length_insert, length_empty_like in Hlx', Hly'.
    split; [exact Hrun|]. split; [lia|]. split; [lia|].
    intros k Hk. apply (Hin k). rewrite length_droplast. lia.
Qed.

(** Its result is the specification's trajectory, array for array. *)
Lemma euler_loop_trajectory jx jy h omega (x y t : list T) (x0 y0 : T) :
  x !! 0 = Some x0 → y !! 0 = Some y0 →
  length x = length t → length y = length t →
  euler_loop jx jy h omega x y t
    = Some (spec_trajectory h omega (length t) (x0, y0)).
Proof.
  intros Hx Hy Hlx Hly.
  destruct (euler_loop_spec jx jy h omega x y t x0 y0) as (s & -> & Hl1 & Hl2 & Hk);
    try done.
  f_equal. destruct s as [xs ys]; simpl in *. unfold spec_trajectory.
  f_equal; apply list_eq; intros k; rewrite list_lookup_fmap;
    destruct (decide (k < length t)) as [Hlt|Hge].
  - rewrite lookup_seq_lt by done. simpl.
    destruct (sample_inv _ _ _ (Hk k Hlt)) as [Hxk _]. simpl in Hxk. by rewrite Hxk.
  - rewrite lookup_seq_ge by lia. apply lookup_ge_None_2. lia.
  - rewrite lookup_seq_lt by done. simpl.
    destruct (sample_inv _ _ _ (Hk k Hlt)) as [_ Hyk]. simpl in Hyk. by rewrite Hyk.
  - rewrite lookup_seq_ge by lia. apply lookup_ge_None_2. lia.
Qed.

(** Without a first element to copy, the cell raises. *)
Lemma euler_loop_empty jx jy h omega (y t : list T) : euler_loop jx jy h omega [] y t = None.
Proof. reflexivity. Qed.

(** C1: for every state [(xk, yk)] held in slot [k], every frequency and
    every step size, one run of the loop body stores exactly
    [xk + h·yk] and [yk − h·ω²·xk] in slot [k+1]; the new values depend
    on nothing but [xk], [yk], [h] and [ω], and no other slot of either
    array changes. *)
Theorem body_is_euler_step h omega k s xk yk :
  xE s !! k = Some xk → yE s !! k = Some yk →
  k + 1 < length (xE s) → k + 1 < length (yE s) →
  ∃ s', body h omega k s = Some s'
      ∧ s' = Store (<[k + 1 := add xk (mul h yk)]> (xE s))
                   (<[k + 1 := sub yk (mul (mul h (pow omega 2)) xk)]> (yE s))
      ∧ sample s' (k + 1)
          = Some (add xk (mul h yk), sub yk (mul (mul h (pow omega 2)) xk))
      ∧ (∀ j, j ≠ k + 1 → xE s' !! j = xE s !! j ∧ yE s' !! j = yE s !! j)
      ∧ length (xE s') = length (xE s) ∧ length (yE s') = length (yE s).
Proof.
  intros Hx Hy Hlx Hly. eexists. split.
  - unfold body, getitem. rewrite Hx. simpl. rewrite Hy. simpl.
    rewrite setitem_Some by done. simpl. rewrite ?Hy. simpl.
    rewrite list_lookup_insert_ne by lia. rewrite Hx. simpl.
    rewrite setitem_Some by done. reflexivity.
  - split; [reflexivity|]. simpl. split.
    + apply sample_Some; simpl; apply list_lookup_insert_eq; done.
    + split; [|by rewrite !length_insert].
      intros j Hj. by rewrite !list_lookup_insert_ne.
Qed.

(** C2: for arrays of a positive length [N], the generator runs the loop
    body [N−1] times, its result has [N] samples, the first one is the
    supplied initial condition [(x[0], y[0])] unchanged, and sample [k]
    is the initial condition after [k] Euler steps, the last one after
    [N−1]. *)
Theorem generator_length_and_start jx jy h omega (x y t : list T) N (x0 y0 : T) :
  0 < N → length x = N → length y = N → length t = N →
  x !! 0 = Some x0 → y !! 0 = Some y0 →
  ∃ s, euler_loop jx jy h omega x y t = Some s
     ∧ length (enumerate (droplast t)) = N - 1
     ∧ length (xE s) = N ∧ length (yE s) = N
     ∧ sample s 0 = Some (x0, y0)
     ∧ (∀ k, k < N → sample s k = Some (spec_iterate h omega k (x0, y0)))
     ∧ sample s (N - 1) = Some (spec_iterate h omega (N - 1) (x0, y0)).
Proof.
  intros HN Hlx Hly Hlt Hx Hy.
  destruct (euler_loop_spec jx jy h omega x y t x0 y0 Hx Hy)
    as (s & Hrun & Hl1 & Hl2 & Hk); [lia | lia |].
  rewrite Hlt in Hl1, Hl2, Hk.
  exists s. split; [done|]. split.
  { by rewrite length_enumerate, length_droplast, Hlt. }
  repeat split; try done.
  - by rewrite (Hk 0 HN).
  - apply Hk. lia.
Qed.

(** C7: on arrays of one element the loop body never runs, and the
    trajectory is that one initial state, whatever [ω] and [h]. *)
Theorem single_sample jx jy h omega (x0 y0 t0 : T) :
  enumerate (droplast [t0]) = []
  ∧ euler_loop jx jy h omega [x0] [y0] [t0] = Some (Store [x0] [y0]).
Proof. split; reflexivity. Qed.

(** C8: the result is a function of the inputs [(ω, initial state, h,
    N)] alone.  Two runs with the same [ω] and [h], on arrays of one
    common length [N] whose first elements (the initial state) agree,
    return the same result, whatever else the arrays [x], [y], [t] of
    either run hold and whatever the uninitialised arrays of
    [np.empty_like] held at the start; the same holds for the whole
    cell when the two grids end at the same time, so that it derives the
    same [h]. *)
Theorem generator_deterministic jx jy jx' jy' h omega
    (x y t x' y' t' : list T) N :
  length x = N → length y = N → length t = N →
  length x' = N → length y' = N → length t' = N →
  x !! 0 = x' !! 0 → y !! 0 = y' !! 0 →
  euler_loop jx jy h omega x y t = euler_loop jx' jy' h omega x' y' t'
  ∧ (getlast t = getlast t' →
     cell8 jx jy omega x y t = cell8 jx' jy' omega x' y' t').
Proof.
  intros Hlx Hly Hlt Hlx' Hly' Hlt' Hx Hy.
  assert (∀ h', euler_loop jx jy h' omega x y t = euler_loop jx' jy' h' omega x' y' t')
    as Hloop.
  { intros h'. destruct (x !! 0) as [x0|] eqn:Hx0.
    - assert (0 < N) as HN by (apply lookup_lt_Some in Hx0; lia).
      destruct (lookup_lt_is_Some_2 y 0) as [y0 Hy0]; [lia|].
      rewrite Hy0 in Hy.
      rewrite (euler_loop_trajectory jx jy h' omega x y t x0 y0) by (done || lia).
      rewrite (euler_loop_trajectory jx' jy' h' omega x' y' t' x0 y0) by (done || lia).
      by rewrite Hlt, Hlt'.
    - unfold euler_loop, getitem. by rewrite <- Hx, Hx0. }
  split; [apply Hloop|]. intros Hlast.
  unfold cell8, step_size. rewrite <- Hlast, Hlt, Hlt'.
  destruct (getlast t) as [tN|]; simpl; [apply Hloop | done].
Qed.
End GeneratorFacts.

(** ** The step over the real numbers *)

Section RealStep.
Implicit Types (h omega : R) (p : R * R).

Lemma step_R h omega (xk yk : R) :
  spec_euler_step h omega (xk, yk)
    = (xk + h * yk, yk - h * (omega * omega) * xk)%R.
Proof. unfold spec_euler_step. simpl. f_equal. f_equal. ring. Qed.

(** With [ω = 0] the velocity is constant and the position drifts. *)
Lemma iterate_zero_frequency h (x0 y0 : R) k :
  spec_iterate h 0%R k (x0, y0) = (x0 + INR k * h * y0, y0)%R.
Proof.
  induction k as [|k IH].
  - rewrite iterate_0. simpl. f_equal. ring.
  - rewrite iterate_S, IH, step_R, S_INR. f_equal; ring.
Qed.

(** With [h = 0] the step is the identity. *)
Lemma iterate_zero_step omega p k : spec_iterate 0%R omega k p = p.
Proof.
  induction k as [|k IH]; [done|].
  rewrite iterate_S, IH. destruct p as [xk yk]. rewrite step_R. f_equal; ring.
Qed.

Lemma wnorm_arg_nonneg omega p :
  (0 <= omega * omega * (p.1 * p.1) + p.2 * p.2)%R.
Proof. nra. Qed.

(** Each step scales the weighted norm by [sqrt (1 + h²ω²)]. *)
Lemma wnorm_step h omega p :
  wnorm omega (spec_euler_step h omega p)
    = (sqrt (1 + h * h * (omega * omega)) * wnorm omega p)%R.
Proof.
  destruct p as [xk yk]. rewrite step_R. unfold wnorm. simpl.
  rewrite <- sqrt_mult.
  - f_equal. ring.
  - nra.
  - apply (wnorm_arg_nonneg omega (xk, yk)).
Qed.

Lemma growth_factor_gt_1 h omega :
  omega ≠ 0%R → h ≠ 0%R → (1 < sqrt (1 + h * h * (omega * omega)))%R.
Proof.
  intros Ho Hh. rewrite <- sqrt_1 at 1.
  assert (0 < h * h)%R by nra. assert (0 < omega * omega)%R by nra.
  apply sqrt_lt_1; nra.
Qed.

Lemma wnorm_pos omega p : omega ≠ 0%R → p ≠ (0, 0)%R → (0 < wnorm omega p)%R.
Proof.
  intros Ho Hp. destruct p as [xk yk]. unfold wnorm. simpl.
  apply sqrt_lt_R0.
  destruct (Req_dec xk 0) as [->|Hx].
  - assert (yk ≠ 0%R) by congruence. nra.
  - assert (0 < omega * omega)%R by nra. assert (0 < xk * xk)%R by nra. nra.
Qed.

Lemma wnorm_iterate_pos h omega p k :
  omega ≠ 0%R → p ≠ (0, 0)%R → (0 < wnorm omega (spec_iterate h omega k p))%R.
Proof.
  intros Ho Hp. induction k as [|k IH].
  - by apply wnorm_pos.
  - rewrite iterate_S, wnorm_step. apply Rmult_lt_0_compat; [|done].
    apply sqrt_lt_R0. nra.
Qed.

Lemma wnorm_unit_frequency omega p : (omega * omega = 1)%R → wnorm omega p = norm p.
Proof. intros Ho. unfold wnorm, norm. rewrite Ho. f_equal. ring. Qed.

(** The scalar rewrite agrees with the Euler step only where the extra
    term [h·ω²·(h·y)] vanishes. *)
Lemma scalar_body_differs h omega p :
  scalar_body h omega p = spec_euler_step h omega p
  ↔ (h * (omega * omega) * (h * p.2) = 0)%R.
Proof.
  destruct p as [xk yk]. unfold scalar_body, spec_euler_step. simpl. split.
  - intros Heq. injection Heq as Heq. nra.
  - intros Heq. f_equal. nra.
Qed.
End RealStep.

(** ** The time grid *)

Lemma length_linspace {T : Type} `{Arith T} (start stop : T) (num : nat) :
  length (linspace start stop num) = num.
Proof.
  unfold linspace. case_decide; rewrite ?length_insert, length_fmap, length_seq; done.
Qed.

Section GridFacts.
Implicit Types (N k : nat).

Lemma length_time_grid N : length (time_grid N) = N.
Proof. apply length_linspace. Qed.

Lemma INR_pred_neq_0 N : 1 < N → INR (N - 1) ≠ 0%R.
Proof. intros HN. apply not_0_INR. lia. Qed.

(** For [N > 1] the grid is uniform with spacing [2π/(N−1)]. *)
Lemma time_grid_lookup N k :
  1 < N → k < N → time_grid N !! k = Some (INR k * (2 * PI / INR (N - 1)))%R.
Proof.
  intros HN Hk. pose proof (INR_pred_neq_0 N HN) as Hne.
  unfold time_grid, linspace.
  rewrite !decide_True by lia.
  destruct (decide (k = N - 1)) as [->|Hkn].
  - rewrite list_lookup_insert_eq by (rewrite length_fmap, length_seq; lia).
    f_equal. field. done.
  - rewrite list_lookup_insert_ne by done.
    rewrite list_lookup_fmap, lookup_seq_lt by done. simpl. f_equal. field. done.
Qed.

Lemma time_grid_first N : 0 < N → time_grid N !! 0 = Some 0%R.
Proof.
  intros HN. destruct (decide (1 < N)) as [H1|H1].
  - rewrite time_grid_lookup by lia. simpl. f_equal. field. by apply INR_pred_neq_0.
  - assert (N = 1) as -> by lia. unfold time_grid, linspace. simpl. f_equal. ring.
Qed.

Lemma time_grid_last N : 1 < N → getlast (time_grid N) = Some (2 * PI)%R.
Proof.
  intros HN. unfold getlast. rewrite last_lookup, length_time_grid.
  unfold time_grid, linspace.
  rewrite (decide_True (P := 1 < N)) by done.
  replace (Nat.pred N) with (N - 1) by lia.
  apply list_lookup_insert_eq. rewrite length_fmap, length_seq. lia.
Qed.

(** The step size cell 8 derives from the grid is [2π/N]. *)
Lemma step_size_time_grid N :
  1 < N → step_size (time_grid N) = Some (2 * PI / INR N)%R.
Proof.
  intros HN. unfold step_size. rewrite time_grid_last by done. simpl.
  by rewrite length_time_grid.
Qed.

Lemma analytic_x_first A omega phi N :
  0 < N →
  analytic_x A omega phi (time_grid N) !! 0 = Some (A * cos phi)%R.
Proof.
  intros HN. unfold analytic_x. rewrite list_lookup_fmap, time_grid_first by done.
  simpl. do 3 f_equal. ring.
Qed.

Lemma analytic_y_first A omega phi N :
  0 < N →
  analytic_y A omega phi (time_grid N) !! 0 = Some (- A * omega * sin phi)%R.
Proof.
  intros HN. unfold analytic_y. rewrite list_lookup_fmap, time_grid_first by done.
  simpl. do 3 f_equal. ring.
Qed.

(** Cells 4 and 8 together: the Euler trajectory from the analytic
    solution's first sample, with step [2π/N]. *)
Lemma run_cells_trajectory jx jy omega A phi N :
  1 < N →
  run_cells jx jy omega A phi N
    = Some (spec_trajectory (2 * PI / INR N)%R omega N
              (A * cos phi, - A * omega * sin phi)%R).
Proof.
  intros HN. unfold run_cells, cell8. rewrite step_size_time_grid by done. simpl.
  rewrite (euler_loop_trajectory _ _ _ _ _ _ _ (A * cos phi)%R (- A * omega * sin phi)%R).
  - by rewrite length_time_grid.
  - apply analytic_x_first. lia.
  - apply analytic_y_first. lia.
  - unfold analytic_x. by rewrite length_fmap.
  - unfold analytic_y. by rewrite length_fmap.
Qed.
End GridFacts.

(** ** The claims about real trajectories *)

Lemma sample_spec_trajectory {T : Type} `{Arith T} (h omega : T) (N k : nat) (p : T * T) :
  k < N → sample (spec_trajectory h omega N p) k = Some (spec_iterate h omega k p).
Proof.
  intros Hk. rewrite (surjective_pairing (spec_iterate h omega k p)).
  apply sample_Some; unfold spec_trajectory; simpl;
    by rewrite list_lookup_fmap, lookup_seq_lt.
Qed.

Lemma INR_100 : INR 100 = 100%R.
Proof. rewrite INR_IZR_INZ. reflexivity. Qed.

Section RealTrajectories.
Implicit Types (h omega : R) (jx jy : nat → R) (N k : nat).

(** C3, as amended: over the exact reals, for [ω ≠ 0], [h > 0] and a
    trajectory started from a state other than the origin, the
    frequency-weighted norm
    [sqrt (ω²x² + y²)] is strictly increasing along the trajectory:
    every Euler step multiplies it by [sqrt (1 + h²ω²) > 1].  For
    [ω² = 1], as in the notebook, it is the Euclidean norm. *)
Theorem weighted_norm_strictly_increasing jx jy h omega (x y t : list R) (x0 y0 : R) :
  omega ≠ 0%R → (0 < h)%R → (x0, y0) ≠ (0, 0)%R →
  x !! 0 = Some x0 → y !! 0 = Some y0 →
  length x = length t → length y = length t →
  ∃ s, euler_loop jx jy h omega x y t = Some s
     ∧ ∀ k, S k < length t →
         ∃ pk pk', sample s k = Some pk ∧ sample s (S k) = Some pk'
           ∧ wnorm omega pk' = (sqrt (1 + h * h * (omega * omega)) * wnorm omega pk)%R
           ∧ (1 < sqrt (1 + h * h * (omega * omega)))%R
           ∧ (wnorm omega pk < wnorm omega pk')%R
           ∧ ((omega * omega = 1)%R → (norm pk < norm pk')%R).
Proof.
  intros Ho Hh Hp Hx Hy Hlx Hly.
  destruct (euler_loop_spec jx jy h omega x y t x0 y0 Hx Hy Hlx Hly)
    as (s & Hrun & _ & _ & Hk).
  exists s. split; [done|]. intros k HSk.
  exists (spec_iterate h omega k (x0, y0)), (spec_iterate h omega (S k) (x0, y0)).
  split; [apply Hk; lia|]. split; [by apply Hk|].
  pose proof (growth_factor_gt_1 h omega Ho) as Hgt.
  pose proof (wnorm_iterate_pos h omega (x0, y0) k Ho Hp) as Hpos.
  assert (h ≠ 0%R) as Hh0 by lra. specialize (Hgt Hh0).
  rewrite iterate_S, wnorm_step.
  split; [done|]. split; [done|].
  assert (wnorm omega (spec_iterate h omega k (x0, y0))
          < sqrt (1 + h * h * (omega * omega)) * wnorm omega (spec_iterate h omega k (x0, y0)))%R
    as Hlt by nra.
  split; [done|]. intros Hunit.
  rewrite <- !(wnorm_unit_frequency omega) by done. by rewrite wnorm_step.
Qed.

(** The origin is a fixed point of the step: a trajectory started there
    never leaves it. *)
Lemma iterate_origin h omega k : spec_iterate h omega k (0, 0)%R = (0, 0)%R.
Proof.
  induction k as [|k IH]; [done|]. rewrite iterate_S, IH, step_R. f_equal; ring.
Qed.

(** C4: the notebook ([ω = 1], [N = 100], first analytic sample
    [(1, 0)]) integrates with [h = 2π/100], and its first Euler step
    gives exactly [(x_1, y_1) = (1, −h)]. *)
Theorem notebook_first_step jx jy :
  step_size (time_grid 100) = Some (2 * PI / 100)%R
  ∧ ∃ s, notebook jx jy = Some s
       ∧ sample s 0 = Some (1, 0)%R
       ∧ sample s 1 = Some (1, - (2 * PI / 100))%R.
Proof.
  split.
  - rewrite step_size_time_grid by lia. by rewrite INR_100.
  - unfold notebook. rewrite run_cells_trajectory by lia. eexists. split; [done|].
    rewrite !sample_spec_trajectory by lia.
    rewrite iterate_S, iterate_0, INR_100, cos_0, sin_0.
    replace (1 * 1, - (1) * 1 * 0)%R with (1, 0)%R by (f_equal; ring).
    split; [done|]. rewrite step_R. do 2 f_equal; field.
Qed.


(** C9: the in-place loop computes the iterates of the pure step: one
    run of the body leaves slot [k] of [xE] as it was and puts the image
    of slots [k] into slots [k+1], and sample [k] of the result is the
    [k]-th iterate of the step on the initial state.  The scalar rewrite
    that updates [x] before it computes [y] is another map: it agrees
    with the step only where [h·ω²·(h·y) = 0], and differs from it at
    [h = ω = 1], [(x, y) = (0, 1)]. *)
Theorem loop_refines_pure_iteration jx jy h omega (x y t : list R) (x0 y0 : R) :
  x !! 0 = Some x0 → y !! 0 = Some y0 →
  length x = length t → length y = length t →
  (∀ k (s : store R) xk yk,
      xE s !! k = Some xk → yE s !! k = Some yk →
      k + 1 < length (xE s) → k + 1 < length (yE s) →
      ∃ s', body h omega k s = Some s'
          ∧ xE s' !! k = Some xk ∧ yE s' !! k = Some yk
          ∧ sample s' (k + 1) = Some (spec_euler_step h omega (xk, yk)))
  ∧ (∃ s, euler_loop jx jy h omega x y t = Some s
        ∧ ∀ k, k < length t → sample s k = Some (spec_iterate h omega k (x0, y0)))
  ∧ (∀ p, scalar_body h omega p = spec_euler_step h omega p
          ↔ (h * (omega * omega) * (h * p.2) = 0)%R)
  ∧ scalar_body 1%R 1%R (0, 1)%R ≠ spec_euler_step 1%R 1%R (0, 1)%R.
Proof.
  intros Hx Hy Hlx Hly. split; [|split; [|split]].
  - intros k s xk yk Hxk Hyk Hl1 Hl2.
    rewrite (body_Some h omega k s xk yk) by done. eexists. split; [done|]. simpl.
    rewrite !list_lookup_insert_ne by lia. split; [done|]. split; [done|].
    apply sample_Some; simpl; by rewrite list_lookup_insert_eq.
  - destruct (euler_loop_spec jx jy h omega x y t x0 y0 Hx Hy Hlx Hly)
      as (s & Hrun & _ & _ & Hk). eauto.
  - apply scalar_body_differs.
  - rewrite scalar_body_differs. simpl. lra.
Qed.

(** C10: for [N > 1] the step size of cell 8 is [2π/N], the spacing of
    the time grid is [2π/(N−1)], and the two differ; the time [k·h] that
    Euler sample [k] stands for is [k·2π/N], while the grid time at the
    same index is [k·2π/(N−1)], a different time for every [k > 0]. *)
Theorem step_size_differs_from_grid_spacing N :
  1 < N →
  step_size (time_grid N) = Some (2 * PI / INR N)%R
  ∧ (∀ k, S k < N →
       ∃ tk tk', time_grid N !! k = Some tk ∧ time_grid N !! S k = Some tk'
               ∧ (tk' - tk = 2 * PI / INR (N - 1))%R)
  ∧ (2 * PI / INR N ≠ 2 * PI / INR (N - 1))%R
  ∧ (∀ k, k < N → time_grid N !! k = Some (INR k * (2 * PI / INR (N - 1)))%R)
  ∧ (∀ k, 0 < k → (INR k * (2 * PI / INR N) ≠ INR k * (2 * PI / INR (N - 1)))%R).
Proof.
  intros HN.
  pose proof (INR_pred_neq_0 N HN) as Hne.
  assert (INR N ≠ 0%R) as HneN by (apply not_0_INR; lia).
  assert (INR N = INR (N - 1) + 1)%R as HNR.
  { replace N with (S (N - 1)) at 1 by lia. apply S_INR. }
  pose proof PI_RGT_0 as Hpi.
  assert (2 * PI / INR N ≠ 2 * PI / INR (N - 1))%R as Hdiff.
  { intros Heq. apply (f_equal (λ r, r * INR N * INR (N - 1))%R) in Heq.
    field_simplify in Heq; [|done|done]. nra. }
  split; [by apply step_size_time_grid|]. split; [|split; [done|split]].
  - intros k Hk. eexists _, _.
    split; [apply time_grid_lookup; lia|]. split; [apply time_grid_lookup; lia|].
    rewrite S_INR. field. done.
  - intros k Hk. by apply time_grid_lookup.
  - intros k Hk Heq. apply Rmult_eq_reg_l in Heq; [done|]. apply not_0_INR. lia.
Qed.
End RealTrajectories.

(** A state that one step leaves unchanged is left unchanged by any
    number of steps, in any arithmetic. *)
Lemma iterate_fixed {T : Type} `{Arith T} (h omega : T) (p : T * T) (k : nat) :
  spec_euler_step h omega p = p → spec_iterate h omega k p = p.
Proof.
  intros Hfix. induction k as [|k IH]; [done|]. by rewrite iterate_S, IH.
Qed.


(** ** Concrete runs *)

(** The Euclidean norm itself need not grow when [ω² ≠ 1]: with [ω = 2]
    and [h = 1/10] the step takes [(1, 1)] to [(11/10, 3/5)], which is
    closer to the origin. *)
Lemma euclidean_norm_can_decrease :
  (2 ≠ 0 ∧ 0 < 1 / 10)%R
  ∧ ∃ s, euler_loop (λ _, 0%R) (λ _, 0%R) (1 / 10)%R 2%R
           [1; 0]%R [1; 0]%R [0; 0]%R = Some s
       ∧ sample s 0 = Some (1, 1)%R
       ∧ sample s 1 = Some (11 / 10, 3 / 5)%R
       ∧ (norm (11 / 10, 3 / 5) < norm (1, 1))%R.
Proof.
  split; [lra|].
  rewrite (euler_loop_trajectory _ _ _ _ _ _ _ 1%R 1%R) by done.
  eexists. split; [done|]. rewrite !sample_spec_trajectory by (simpl; lia).
  rewrite iterate_S, iterate_0, step_R.
  split; [done|]. split; [do 2 f_equal; lra|].
  unfold norm. simpl. apply sqrt_lt_1; lra.
Qed.

Lemma weighted_norm_strictly_increasing_witness :
  ∃ s, euler_loop (λ _, 0%R) (λ _, 0%R) (1 / 10)%R 2%R
         [1; 0]%R [1; 0]%R [0; 0]%R = Some s
     ∧ ∀ k, S k < 2 →
         ∃ pk pk', sample s k = Some pk ∧ sample s (S k) = Some pk'
           ∧ wnorm 2 pk' = (sqrt (1 + 1 / 10 * (1 / 10) * (2 * 2)) * wnorm 2 pk)%R
           ∧ (1 < sqrt (1 + 1 / 10 * (1 / 10) * (2 * 2)))%R
           ∧ (wnorm 2 pk < wnorm 2 pk')%R
           ∧ ((2 * 2 = 1)%R → (norm pk < norm pk')%R).
Proof.
  apply (weighted_norm_strictly_increasing (λ _, 0%R) (λ _, 0%R) (1 / 10)%R 2%R
           [1; 0]%R [1; 0]%R [0; 0]%R 1%R 1%R).
  - lra.
  - lra.
  - intros Heq. injection Heq as Heq _. lra.
  - reflexivity.
  - reflexivity.
  - reflexivity.
  - reflexivity.
Defined.

Lemma body_is_euler_step_witness :
  ∃ s', body 0.5%float 2%float 0 (Store [1; 7]%float [3; 9]%float) = Some s'
      ∧ s' = Store [1; 2.5]%float [3; 1]%float
      ∧ sample s' 1 = Some (2.5, 1)%float
      ∧ (∀ j, j ≠ 1 → xE s' !! j = [1; 7]%float !! j ∧ yE s' !! j = [3; 9]%float !! j)
      ∧ length (xE s') = 2 ∧ length (yE s') = 2.
Proof.
  exact (body_is_euler_step 0.5%float 2%float 0 (Store [1; 7]%float [3; 9]%float)
           1%float 3%float eq_refl eq_refl
           ltac:(simpl; lia) ltac:(simpl; lia)).
Defined.

Lemma generator_length_and_start_witness :
  ∃ s, euler_loop (λ _, 7%float) (λ _, 9%float) 0.5%float 2%float
         [1; 4; 4]%float [3; 4; 4]%float [0; 1; 2]%float = Some s
     ∧ length (enumerate (droplast [0; 1; 2]%float)) = 3 - 1
     ∧ length (xE s) = 3 ∧ length (yE s) = 3
     ∧ sample s 0 = Some (1, 3)%float
     ∧ (∀ k, k < 3 → sample s k = Some (spec_iterate 0.5%float 2%float k (1, 3)%float))
     ∧ sample s (3 - 1) = Some (spec_iterate 0.5%float 2%float (3 - 1) (1, 3)%float).
Proof.
  apply (generator_length_and_start (λ _, 7%float) (λ _, 9%float) 0.5%float 2%float
           [1; 4; 4]%float [3; 4; 4]%float [0; 1; 2]%float 3 1%float 3%float).
  - lia.
  - reflexivity.
  - reflexivity.
  - reflexivity.
  - reflexivity.
  - reflexivity.
Defined.

Lemma generator_deterministic_witness :
  euler_loop (λ _, 7%float) (λ _, 9%float) 0.5%float 2%float
      [1; 4; 4]%float [3; 4; 4]%float [0; 1; 2]%float
    = euler_loop (λ _, 0%float) (λ i, of_nat i) 0.5%float 2%float
        [1; 5; 6]%float [3; 8; 9]%float [7; 7; 2]%float
  ∧ (getlast [0; 1; 2]%float = getlast [7; 7; 2]%float →
     cell8 (λ _, 7%float) (λ _, 9%float) 2%float
         [1; 4; 4]%float [3; 4; 4]%float [0; 1; 2]%float
     = cell8 (λ _, 0%float) (λ i, of_nat i) 2%float
         [1; 5; 6]%float [3; 8; 9]%float [7; 7; 2]%float).
Proof.
  apply (generator_deterministic (λ _, 7%float) (λ _, 9%float) (λ _, 0%float)
           (λ i, of_nat i) 0.5%float 2%float
           [1; 4; 4]%float [3; 4; 4]%float [0; 1; 2]%float
           [1; 5; 6]%float [3; 8; 9]%float [7; 7; 2]%float 3);
    reflexivity.
Defined.



Lemma loop_refines_pure_iteration_witness :
  ∃ s, euler_loop (λ _, 0%R) (λ _, 0%R) (1 / 2)%R 3%R
         [1; 0; 0]%R [2; 0; 0]%R [0; 0; 0]%R = Some s
     ∧ ∀ k, k < 3 → sample s k = Some (spec_iterate (1 / 2)%R 3%R k (1, 2)%R).
Proof.
  apply (loop_refines_pure_iteration (λ _, 0%R) (λ _, 0%R) (1 / 2)%R 3%R
           [1; 0; 0]%R [2; 0; 0]%R [0; 0; 0]%R 1%R 2%R);
    reflexivity.
Defined.

Lemma step_size_differs_from_grid_spacing_witness :
  step_size (time_grid 100) = Some (2 * PI / INR 100)%R
  ∧ (2 * PI / INR 100 ≠ 2 * PI / INR (100 - 1))%R.
Proof.
  pose proof (step_size_differs_from_grid_spacing 100 ltac:(lia)) as (Hh & _ & Hne & _).
  split; [exact Hh | exact Hne].
Defined.

(** *** The notebook's numbers in binary64 *)

(** In binary64 the step size of cell 8 is [0.06283185307179587], the
    spacing of the grid [t[1] - t[0]] is [0.06346651825433926]. *)
Remark binary64_step_size_and_spacing :
  step_size (time_grid_f 100) = Some 0x1.015bf9217271ap-4%float
  ∧ time_grid_f 100 !! 0 = Some 0%float
  ∧ time_grid_f 100 !! 1 = Some 0x1.03f577c4b1a91p-4%float
  ∧ getlast (time_grid_f 100) = Some two_pi_f.
Proof. vm_compute. done. Qed.

(** The run of cell 8 in binary64 from [x[0] = cos(0.0) = 1.0] and
    [y[0] = -1.0 * 1 * sin(0.0) = -0.0]: the first step gives
    [(1.0, -0.06283185307179587)], whatever else the arrays hold. *)
Remark binary64_first_step jx jy (x y : list float) :
  length x = 100 → length y = 100 →
  x !! 0 = Some 1%float → y !! 0 = Some (-0)%float →
  ∃ s, cell8 jx jy 1%float x y (time_grid_f 100) = Some s
     ∧ sample s 0 = Some (1, -0)%float
     ∧ sample s 1 = Some (1, -0x1.015bf9217271ap-4)%float
     ∧ sample s 99 = Some (0x1.36589f6faebe8p+0, 0x1.6123444a4dc37p-4)%float.
Proof.
  intros Hlx Hly Hx Hy. unfold cell8.
  destruct binary64_step_size_and_spacing as (-> & _). simpl.
  rewrite (euler_loop_trajectory _ _ _ _ _ _ _ 1%float (-0)%float)
    by (rewrite ?length_linspace; done).
  eexists. split; [done|]. unfold time_grid_f. rewrite length_linspace.
  rewrite !sample_spec_trajectory by lia.
  repeat split; vm_compute; reflexivity.
Qed.

(** Rounding shows in binary64: with [ω = 0], [h = 0.1] and the initial
    state [(0, 1)], six additions of [h*y] give [0.6], while
    [0 + 6*0.1*1] is [0.6000000000000001]. *)
Remark binary64_drift_rounds :
  (spec_iterate 0x1.999999999999ap-4%float 0%float 6 (0, 1)%float).1
    = 0x1.3333333333333p-1%float
  ∧ (0 + 6 * 0x1.999999999999ap-4 * 1 = 0x1.3333333333334p-1)%float.
Proof. vm_compute. done. Qed.



(** In binary64 the norm can shrink even for [ω = 1]: with [h = 2⁻⁵³]
    the step takes [(1, 1)] to [(1, 1 − 2⁻⁵³)], the position unchanged by
    rounding and the velocity smaller. *)
Remark binary64_norm_can_shrink :
  euler_loop (λ _, 0%float) (λ _, 0%float) 0x1p-53%float 1%float
    [1; 0]%float [1; 0]%float [0; 0]%float
  = Some (Store [1; 1]%float [1; 0x1.fffffffffffffp-1]%float)
  ∧ PrimFloat.ltb 0x1.fffffffffffffp-1 1 = true.
Proof. split; vm_compute; reflexivity. Qed.

(** * Further properties of the cells *)

(** ** Index errors *)

Section Bounds.
Context {T : Type} `{Arith T}.
Implicit Types (h omega : T) (s : store T) (jx jy : nat → T).

(** The loop body raises [IndexError] exactly when slot [k+1] lies outside
    one of the two arrays. *)
Lemma body_in_bounds_iff h omega k s :
  is_Some (body h omega k s)
  ↔ k + 1 < length (xE s) ∧ k + 1 < length (yE s).
Proof.
  split.
  - intros [s' Hs]. unfold body, getitem, setitem in Hs.
    destruct (xE s !! k) as [xk|]; simpl in Hs; [|done].
    destruct (yE s !! k) as [yk|]; simpl in Hs; [|done].
    destruct (decide (k + 1 < length (xE s))) as [Hlx|]; simpl in Hs; [|done].
    destruct (<[k + 1 := add xk (mul h yk)]> (xE s) !! k) as [xk'|]; simpl in Hs; [|done].
    destruct (decide (k + 1 < length (yE s))) as [Hly|]; simpl in Hs; [|done].
    done.
  - intros [Hlx Hly].
    destruct (lookup_lt_is_Some_2 (xE s) k) as [xk Hxk]; [lia|].
    destruct (lookup_lt_is_Some_2 (yE s) k) as [yk Hyk]; [lia|].
    rewrite (body_Some h omega k s xk yk) by done. by eexists.
Qed.

Lemma for_loop_in_bounds_iff h omega (a : list T) : ∀ i s,
  i < length (xE s) → i < length (yE s) →
  is_Some (for_loop h omega (enumerate_from i a) s)
  ↔ i + length a < length (xE s) ∧ i + length a < length (yE s).
Proof.
  induction a as [|v a IH]; intros i s Hix Hiy; simpl.
  - split; [intros _; lia | by eexists].
  - destruct (decide (i + 1 < length (xE s) ∧ i + 1 < length (yE s))) as [[Hlx Hly]|Hout].
    + destruct (lookup_lt_is_Some_2 (xE s) i) as [xk Hxk]; [lia|].
      destruct (lookup_lt_is_Some_2 (yE s) i) as [yk Hyk]; [lia|].
      rewrite (body_Some h omega i s xk yk) by done. simpl.
      rewrite IH by (simpl; rewrite length_insert; lia).
      simpl. rewrite !length_insert. lia.
    + destruct (body h omega i s) as [s'|] eqn:Hb.
      * exfalso. apply Hout, (proj1 (body_in_bounds_iff h omega i s)).
        rewrite Hb. by eexists.
      * simpl. split; [by intros [? ?] | lia].
Qed.

Lemma euler_loop_in_bounds_iff jx jy h omega (x y t : list T) :
  is_Some (euler_loop jx jy h omega x y t)
  ↔ length t - 1 < length x ∧ length t - 1 < length y.
Proof.
  unfold euler_loop, getitem.
  destruct (x !! 0) as [x0|] eqn:Hx; simpl.
  2: { apply lookup_ge_None in Hx. split; [by intros [? ?] | lia]. }
  apply lookup_lt_Some in Hx.
  rewrite setitem_Some by (rewrite length_empty_like; lia). simpl.
  destruct (y !! 0) as [y0|] eqn:Hy; simpl.
  2: { apply lookup_ge_None in Hy. split; [by intros [? ?] | lia]. }
  apply lookup_lt_Some in Hy.
  rewrite setitem_Some by (rewrite length_empty_like; lia). simpl.
  unfold enumerate. rewrite for_loop_in_bounds_iff;
    simpl; rewrite ?length_insert, ?length_empty_like, ?length_droplast; lia.
Qed.

(** Cell 8 raises [IndexError] exactly when [t] is empty or longer than
    [x] or [y]; otherwise it returns. *)
Theorem cell8_in_bounds_iff jx jy omega (x y t : list T) :
  is_Some (cell8 jx jy omega x y t)
  ↔ t ≠ [] ∧ length t ≤ length x ∧ length t ≤ length y.
Proof.
  unfold cell8, step_size, getlast.
  destruct (last t) as [tN|] eqn:Hlast; simpl.
  - assert (t ≠ []) as Hne by (intros ->; done).
    assert (0 < length t) by (destruct t; [done | simpl; lia]).
    rewrite euler_loop_in_bounds_iff. split; [intros []|intros (_ & ? & ?)];
      repeat split; (done || lia).
  - apply last_None in Hlast as ->. split; [by intros [? ?] | by intros [? _]].
Qed.

(** The loop on arrays [x], [y] at least as long as [t]: the result has
    the shapes of [x] and [y], its first [length t] samples are the
    iterates of the step, and every later slot still holds what
    [np.empty_like] left there. *)
Lemma euler_loop_frame jx jy h omega (x y t : list T) (x0 y0 : T) :
  x !! 0 = Some x0 → y !! 0 = Some y0 →
  length t - 1 < length x → length t - 1 < length y →
  ∃ s, euler_loop jx jy h omega x y t = Some s
     ∧ length (xE s) = length x ∧ length (yE s) = length y
     ∧ (∀ k, k ≤ length t - 1 → sample s k = Some (spec_iterate h omega k (x0, y0)))
     ∧ (∀ k, length t - 1 < k → k < length x → xE s !! k = Some (jx k))
     ∧ (∀ k, length t - 1 < k → k < length y → yE s !! k = Some (jy k)).
Proof.
  intros Hx Hy Hlx Hly.
  unfold euler_loop, getitem. rewrite Hx. simpl.
  rewrite setitem_Some by (rewrite length_empty_like; lia). simpl.
  rewrite Hy. simpl.
  rewrite setitem_Some by (rewrite length_empty_like; lia). simpl.
  set (s0 := Store _ _).
  destruct (for_loop_spec h omega (droplast t) 0 s0 (x0, y0))
    as (s & Hrun & Hlx' & Hly' & Hin & Hout).
  - apply sample_Some; unfold s0; simpl; apply list_lookup_insert_eq;
      rewrite length_empty_like; lia.
  - unfold s0; simpl. rewrite length_insert, length_empty_like, length_droplast. lia.
  - unfold s0; simpl. rewrite length_insert, length_empty_like, length_droplast. lia.
  - exists s. unfold s0 in *; simpl in *.
    rewrite length_insert, length_empty_like in Hlx', Hly'.
    rewrite length_droplast in Hin, Hout.
    split; [exact Hrun|]. split; [done|]. split; [done|].
    split; [intros k Hk; by apply (Hin k)|].
    split; intros k Hk Hlen; destruct (Hout k) as [Hxk Hyk]; try lia.
    + rewrite Hxk, list_lookup_insert_ne by lia.
      unfold empty_like. rewrite list_lookup_imap.
      destruct (lookup_lt_is_Some_2 x k Hlen) as [v ->]. done.
    + rewrite Hyk, list_lookup_insert_ne by lia.
      unfold empty_like. rewrite list_lookup_imap.
      destruct (lookup_lt_is_Some_2 y k Hlen) as [v ->]. done.
Qed.

(** When [x] and [y] are longer than [t], the slots of the result from
    index [length t] on are never written: they hold the uninitialised
    contents of [np.empty_like], while the first [length t] samples are
    the Euler iterates. *)
Theorem trailing_slots_uninitialised jx jy omega (x y t : list T) :
  t ≠ [] → length t ≤ length x → length t ≤ length y →
  ∃ s h x0 y0, step_size t = Some h ∧ cell8 jx jy omega x y t = Some s
     ∧ x !! 0 = Some x0 ∧ y !! 0 = Some y0
     ∧ length (xE s) = length x ∧ length (yE s) = length y
     ∧ (∀ k, k < length t → sample s k = Some (spec_iterate h omega k (x0, y0)))
     ∧ (∀ k, length t ≤ k → k < length x → xE s !! k = Some (jx k))
     ∧ (∀ k, length t ≤ k → k < length y → yE s !! k = Some (jy k)).
Proof.
  intros Hne Hlx Hly.
  assert (0 < length t) as Hpos by (destruct t; [done | simpl; lia]).
  destruct (lookup_lt_is_Some_2 x 0) as [x0 Hx0]; [lia|].
  destruct (lookup_lt_is_Some_2 y 0) as [y0 Hy0]; [lia|].
  unfold cell8, step_size.
  destruct (getlast_Some t Hpos) as [tN ->]. simpl.
  destruct (euler_loop_frame jx jy (div tN (of_nat (length t))) omega x y t x0 y0)
    as (s & Hrun & Hl1 & Hl2 & Hin & Hfx & Hfy); try done; try lia.
  exists s, (div tN (of_nat (length t))), x0, y0. repeat split; try done.
  - intros k Hk. apply Hin. lia.
  - intros k Hk Hlen. apply Hfx; lia.
  - intros k Hk Hlen. apply Hfy; lia.
Qed.

Lemma iterate_add h omega (n j : nat) (p : T * T) :
  spec_iterate h omega (n + j) p = spec_iterate h omega j (spec_iterate h omega n p).
Proof.
  unfold spec_iterate. rewrite Nat.add_comm. apply Nat.iter_add.
Qed.

(** A trajectory can be continued from any of its samples: a second run
    that starts from sample [n] of a first run reproduces the first run's
    samples [n], [n+1], ... as far as both reach. *)
Theorem trajectory_restart jx jy jx' jy' h omega
    (x y t x' y' t' : list T) s n (xn yn : T) :
  length x = length t → length y = length t →
  euler_loop jx jy h omega x y t = Some s →
  sample s n = Some (xn, yn) →
  x' !! 0 = Some xn → y' !! 0 = Some yn →
  length x' = length t' → length y' = length t' →
  ∃ s', euler_loop jx' jy' h omega x' y' t' = Some s'
      ∧ ∀ j, j < length t' → n + j < length t → sample s' j = sample s (n + j).
Proof.
  intros Hlx Hly Hrun Hn Hx' Hy' Hlx' Hly'.
  destruct (x !! 0) as [x0|] eqn:Hx0.
  2: { unfold euler_loop, getitem in Hrun. by rewrite Hx0 in Hrun. }
  destruct (y !! 0) as [y0|] eqn:Hy0.
  2: { apply lookup_ge_None in Hy0. apply lookup_lt_Some in Hx0. lia. }
  destruct (euler_loop_spec jx jy h omega x y t x0 y0) as (s1 & Hrun1 & _ & _ & Hk);
    try done.
  rewrite Hrun in Hrun1. injection Hrun1 as <-.
  destruct (euler_loop_spec jx' jy' h omega x' y' t' xn yn) as (s' & Hrun' & _ & _ & Hk');
    try done.
  exists s'. split; [done|]. intros j Hj Hnj.
  assert (n < length t) as Hnt by lia.
  rewrite (Hk n Hnt) in Hn. injection Hn as Hn.
  rewrite Hk' by done. rewrite Hk by done. by rewrite iterate_add, Hn.
Qed.
End Bounds.

(** ** Growth and error propagation over the reals *)

Section Growth.
Implicit Types (h omega : R) (p : R * R) (jx jy : nat → R) (N k : nat).

Lemma growth_factor_pos h omega : (0 < growth_factor h omega)%R.
Proof. unfold growth_factor. apply sqrt_lt_R0. nra. Qed.

(** After [k] steps the weighted norm is [growth_factor ^ k] times what it
    was. *)
Lemma wnorm_iterate h omega k p :
  wnorm omega (spec_iterate h omega k p)
    = (growth_factor h omega ^ k * wnorm omega p)%R.
Proof.
  induction k as [|k IH].
  - rewrite iterate_0. simpl. ring.
  - rewrite iterate_S, wnorm_step, IH. unfold growth_factor. simpl. ring.
Qed.

(** The step is linear: the iterates of a difference of states are the
    differences of the iterates. *)
Lemma iterate_sub h omega k (x0 y0 x0' y0' : R) :
  spec_iterate h omega k (x0' - x0, y0' - y0)%R
  = ((spec_iterate h omega k (x0', y0')).1 - (spec_iterate h omega k (x0, y0)).1,
     (spec_iterate h omega k (x0', y0')).2 - (spec_iterate h omega k (x0, y0)).2)%R.
Proof.
  induction k as [|k IH]; [done|].
  rewrite !iterate_S, IH.
  destruct (spec_iterate h omega k (x0', y0')) as [a' b'].
  destruct (spec_iterate h omega k (x0, y0)) as [a b].
  rewrite !step_R. simpl. f_equal; ring.
Qed.

(** Long trajectories diverge: for [ω ≠ 0], [h ≠ 0] and an initial state
    other than the origin, sample [k] has weighted norm
    [growth_factor ^ k] times the initial one, and for every bound [B]
    there is an index from which on every sample of every trajectory that
    long lies beyond [B]. *)
Theorem trajectory_diverges h omega (x0 y0 : R) (B : R) :
  omega ≠ 0%R → h ≠ 0%R → (x0, y0) ≠ (0, 0)%R →
  ∃ K, ∀ jx jy (x y t : list R),
    x !! 0 = Some x0 → y !! 0 = Some y0 →
    length x = length t → length y = length t →
    ∃ s, euler_loop jx jy h omega x y t = Some s
       ∧ ∀ k, k < length t →
           ∃ p, sample s k = Some p
              ∧ wnorm omega p = (growth_factor h omega ^ k * wnorm omega (x0, y0))%R
              ∧ (K ≤ k → (B < wnorm omega p)%R).
Proof.
  intros Ho Hh Hp.
  pose proof (wnorm_pos omega (x0, y0) Ho Hp) as Hw0.
  pose proof (growth_factor_gt_1 h omega Ho Hh) as Hgt.
  fold (growth_factor h omega) in Hgt.
  destruct (Pow_x_infinity (growth_factor h omega)) with (b := (B / wnorm omega (x0, y0) + 1)%R)
    as [K HK].
  { rewrite Rabs_pos_eq by lra. lra. }
  exists K. intros jx jy x y t Hx Hy Hlx Hly.
  destruct (euler_loop_spec jx jy h omega x y t x0 y0 Hx Hy Hlx Hly)
    as (s & Hrun & _ & _ & Hk).
  exists s. split; [done|]. intros k Hlt.
  exists (spec_iterate h omega k (x0, y0)). split; [by apply Hk|].
  rewrite wnorm_iterate. split; [done|]. intros HKk.
  specialize (HK k ltac:(lia)).
  assert (0 < growth_factor h omega ^ k)%R as Hpow
    by (apply pow_lt; lra).
  rewrite Rabs_pos_eq in HK by lra.
  assert (B / wnorm omega (x0, y0) * wnorm omega (x0, y0) = B)%R as HB
    by (field; lra).
  nra.
Qed.

(** Errors in the initial condition are propagated by the same
    recurrence: two runs with the same [h] and [ω] differ at sample [k] by
    the [k]-th iterate of their initial difference, whose weighted norm
    is [growth_factor ^ k] times that of the initial difference. *)
Theorem initial_error_propagates jx jy jx' jy' h omega
    (x y x' y' t : list R) (x0 y0 x0' y0' : R) :
  x !! 0 = Some x0 → y !! 0 = Some y0 →
  x' !! 0 = Some x0' → y' !! 0 = Some y0' →
  length x = length t → length y = length t →
  length x' = length t → length y' = length t →
  ∃ s s', euler_loop jx jy h omega x y t = Some s
        ∧ euler_loop jx' jy' h omega x' y' t = Some s'
        ∧ ∀ k, k < length t →
            ∃ p p', sample s k = Some p ∧ sample s' k = Some p'
                  ∧ (p'.1 - p.1, p'.2 - p.2)%R
                      = spec_iterate h omega k (x0' - x0, y0' - y0)%R
                  ∧ wnorm omega (p'.1 - p.1, p'.2 - p.2)%R
                      = (growth_factor h omega ^ k
                           * wnorm omega (x0' - x0, y0' - y0))%R.
Proof.
  intros Hx Hy Hx' Hy' Hlx Hly Hlx' Hly'.
  destruct (euler_loop_spec jx jy h omega x y t x0 y0 Hx Hy Hlx Hly)
    as (s & Hrun & _ & _ & Hk).
  destruct (euler_loop_spec jx' jy' h omega x' y' t x0' y0' Hx' Hy' Hlx' Hly')
    as (s' & Hrun' & _ & _ & Hk').
  exists s, s'. split; [done|]. split; [done|]. intros k Hlt.
  exists (spec_iterate h omega k (x0, y0)), (spec_iterate h omega k (x0', y0')).
  split; [by apply Hk|]. split; [by apply Hk'|].
  rewrite <- iterate_sub. split; [done|]. apply wnorm_iterate.
Qed.
End Growth.

(** ** The analytic solution of cell 4 *)

Section Analytic.
Implicit Types (A omega phi : R) (jx jy : nat → R) (N k : nat) (t : list R).

Lemma analytic_lookup A omega phi t k tk :
  t !! k = Some tk →
  analytic_x A omega phi t !! k = Some (A * cos (omega * tk + phi))%R
  ∧ analytic_y A omega phi t !! k = Some (- A * omega * sin (omega * tk + phi))%R.
Proof.
  intros Ht. unfold analytic_x, analytic_y. by rewrite !list_lookup_fmap, Ht.
Qed.

Lemma wnorm_exact A omega (u : R) :
  wnorm omega (A * cos u, - A * omega * sin u)%R = Rabs (A * omega).
Proof.
  unfold wnorm. simpl. rewrite <- sqrt_Rsqr_abs. f_equal. unfold Rsqr.
  pose proof (sin2_cos2 u) as Hsc. unfold Rsqr in Hsc.
  replace (omega * omega * (A * cos u * (A * cos u))
           + - A * omega * sin u * (- A * omega * sin u))%R
    with (A * omega * (A * omega) * (sin u * sin u + cos u * cos u))%R by ring.
  rewrite Hsc. ring.
Qed.

(** Over the reals, with exact [cos] and [sin], every analytic sample
    lies on the ellipse [ω²x² + y² = (Aω)²]: its weighted norm is [|Aω|]
    at every grid time.  (The binary64 arrays satisfy this up to
    rounding only.) *)
Theorem analytic_solution_on_ellipse A omega phi t k (xk yk : R) :
  analytic_x A omega phi t !! k = Some xk →
  analytic_y A omega phi t !! k = Some yk →
  (omega * omega * (xk * xk) + yk * yk = A * omega * (A * omega))%R
  ∧ wnorm omega (xk, yk) = Rabs (A * omega).
Proof.
  intros Hx Hy.
  destruct (t !! k) as [tk|] eqn:Ht.
  2: { unfold analytic_x in Hx. by rewrite list_lookup_fmap, Ht in Hx. }
  destruct (analytic_lookup A omega phi t k tk Ht) as [Hx' Hy'].
  rewrite Hx' in Hx. rewrite Hy' in Hy. injection Hx as <-. injection Hy as <-.
  pose proof (wnorm_exact A omega (omega * tk + phi)) as Hw. split; [|done].
  pose proof (sin2_cos2 (omega * tk + phi)) as Hsc. unfold Rsqr in Hsc.
  replace (omega * omega * (A * cos (omega * tk + phi) * (A * cos (omega * tk + phi)))
           + - A * omega * sin (omega * tk + phi) * (- A * omega * sin (omega * tk + phi)))%R
    with (A * omega * (A * omega)
          * (sin (omega * tk + phi) * sin (omega * tk + phi)
             + cos (omega * tk + phi) * cos (omega * tk + phi)))%R by ring.
  rewrite Hsc. ring.
Qed.

(** Over the reals, with the exact [2π] and exact [cos] and [sin]: for a
    whole-number frequency (the notebook's [ω = 1]) the grid spans whole
    periods and the last analytic sample equals the first one.  (In
    binary64 [t[N-1]] is the rounded [2π], whose sine is about [-2.4e-16],
    so the last velocity sample is close to the first one, not equal.) *)
Theorem analytic_solution_closes A phi (m : nat) N :
  1 < N →
  analytic_x A (INR m) phi (time_grid N) !! (N - 1)
    = analytic_x A (INR m) phi (time_grid N) !! 0
  ∧ analytic_y A (INR m) phi (time_grid N) !! (N - 1)
    = analytic_y A (INR m) phi (time_grid N) !! 0
  ∧ analytic_x A (INR m) phi (time_grid N) !! 0 = Some (A * cos phi)%R
  ∧ analytic_y A (INR m) phi (time_grid N) !! 0 = Some (- A * INR m * sin phi)%R.
Proof.
  intros HN. pose proof (INR_pred_neq_0 N HN) as Hne.
  rewrite analytic_x_first, analytic_y_first by lia.
  destruct (analytic_lookup A (INR m) phi (time_grid N) (N - 1)
              (INR (N - 1) * (2 * PI / INR (N - 1)))%R) as [-> ->].
  { apply time_grid_lookup; lia. }
  replace (INR m * (INR (N - 1) * (2 * PI / INR (N - 1))) + phi)%R
    with (phi + 2 * INR m * PI)%R by (field; done).
  by rewrite cos_period, sin_period.
Qed.

(** The time grid runs from [0] to [2π] and is strictly increasing. *)
Theorem time_grid_increasing N i j :
  i < j → j < N →
  ∃ ti tj, time_grid N !! i = Some ti ∧ time_grid N !! j = Some tj
         ∧ (0 <= ti)%R ∧ (ti < tj)%R ∧ (tj <= 2 * PI)%R
         ∧ time_grid N !! 0 = Some 0%R
         ∧ time_grid N !! (N - 1) = Some (2 * PI)%R.
Proof.
  intros Hij HjN. assert (1 < N) as HN by lia.
  pose proof (INR_pred_neq_0 N HN) as Hne.
  assert (0 < INR (N - 1))%R as Hpos by (apply lt_0_INR; lia).
  pose proof PI_RGT_0 as Hpi.
  assert (0 < 2 * PI / INR (N - 1))%R as Hstep.
  { apply Rdiv_lt_0_compat; lra. }
  exists (INR i * (2 * PI / INR (N - 1)))%R, (INR j * (2 * PI / INR (N - 1)))%R.
  split; [apply time_grid_lookup; lia|]. split; [apply time_grid_lookup; lia|].
  assert (0 <= INR i)%R by apply pos_INR.
  assert (INR i < INR j)%R by (apply lt_INR; lia).
  assert (INR j <= INR (N - 1))%R by (apply le_INR; lia).
  split; [nra|]. split; [nra|]. split.
  { replace (2 * PI)%R with (INR (N - 1) * (2 * PI / INR (N - 1)))%R at 2 by (field; done).
    nra. }
  split; [apply time_grid_first; lia|].
  rewrite time_grid_lookup by lia. f_equal. field. done.
Qed.

(** The two cells together raise for [N = 0] (there is no [t[-1]]) and
    return for every other [N]: then the Euler arrays have [N] samples
    and start at the first analytic sample [(A·cos φ, −A·ω·sin φ)]. *)
Theorem run_cells_sample_count jx jy omega A phi N :
  (N = 0 → run_cells jx jy omega A phi N = None)
  ∧ (0 < N →
      ∃ s, run_cells jx jy omega A phi N = Some s
         ∧ length (xE s) = N ∧ length (yE s) = N
         ∧ sample s 0 = Some (A * cos phi, - A * omega * sin phi)%R).
Proof.
  split.
  - intros ->. reflexivity.
  - intros HN. unfold run_cells, cell8, step_size.
    destruct (getlast_Some (time_grid N)) as [tN ->];
      [rewrite length_time_grid; lia|]. simpl.
    destruct (euler_loop_spec jx jy (tN / INR (length (time_grid N)))%R omega
                (analytic_x A omega phi (time_grid N))
                (analytic_y A omega phi (time_grid N)) (time_grid N)
                (A * cos phi)%R (- A * omega * sin phi)%R)
      as (s & Hrun & Hl1 & Hl2 & Hk).
    + by apply analytic_x_first.
    + by apply analytic_y_first.
    + unfold analytic_x. by rewrite length_fmap.
    + unfold analytic_y. by rewrite length_fmap.
    + rewrite length_time_grid in *. exists s. repeat split; try done.
      by rewrite (Hk 0 HN).
Qed.

(** The Euler arrays spiral away from the analytic ones: for [ω ≠ 0],
    [A ≠ 0] and [N > 1] both start on the ellipse of weighted norm
    [|Aω|]; analytic sample [k] stays on it, Euler sample [k] has
    weighted norm [growth_factor ^ k · |Aω|], strictly larger for every
    [k > 0]. *)
Theorem euler_leaves_analytic_orbit jx jy omega A phi N :
  omega ≠ 0%R → A ≠ 0%R → 1 < N →
  ∃ s, run_cells jx jy omega A phi N = Some s
     ∧ ∀ k, k < N →
         ∃ p q, sample s k = Some p
              ∧ sample (Store (analytic_x A omega phi (time_grid N))
                              (analytic_y A omega phi (time_grid N))) k = Some q
              ∧ wnorm omega q = Rabs (A * omega)
              ∧ wnorm omega p
                  = (growth_factor (2 * PI / INR N) omega ^ k * Rabs (A * omega))%R
              ∧ (0 < k → (wnorm omega q < wnorm omega p)%R).
Proof.
  intros Ho HA HN. rewrite run_cells_trajectory by done.
  eexists. split; [done|]. intros k Hk.
  rewrite sample_spec_trajectory by done.
  destruct (analytic_lookup A omega phi (time_grid N) k
              (INR k * (2 * PI / INR (N - 1)))%R) as [Hx Hy].
  { by apply time_grid_lookup. }
  eexists _, _. split; [done|]. split; [by apply sample_Some|].
  rewrite wnorm_exact. split; [done|].
  rewrite wnorm_iterate, wnorm_exact. split; [done|]. intros Hk0.
  assert (0 < Rabs (A * omega))%R as Habs.
  { apply Rabs_pos_lt. by apply Rmult_integral_contrapositive_currified. }
  assert (2 * PI / INR N ≠ 0)%R as Hh.
  { pose proof PI_RGT_0. assert (0 < INR N)%R by (apply lt_0_INR; lia).
    apply Rgt_not_eq. apply Rdiv_lt_0_compat; lra. }
  pose proof (growth_factor_gt_1 _ omega Ho Hh) as Hgt.
  fold (growth_factor (2 * PI / INR N) omega) in Hgt.
  assert (1 < growth_factor (2 * PI / INR N) omega ^ k)%R as Hpow.
  { apply Rlt_pow_R1; [done | lia]. }
  nra.
Qed.
End Analytic.

(** ** The analytic arrays and the differential equation *)

(** The arrays of cell 4 sample a solution of the oscillator
    [ẋ = y], [ẏ = −ω²x]: [x] holds [x_at] and [y] holds [y_at] at each
    grid time, [y_at] is the time derivative of [x_at], and the time
    derivative of [y_at] is [−ω²·x_at]. *)
Theorem analytic_arrays_solve_oscillator (A omega phi : R) (t : list R) (u : R) :
  analytic_x A omega phi t = x_at A omega phi <$> t
  ∧ analytic_y A omega phi t = y_at A omega phi <$> t
  ∧ derivable_pt_lim (x_at A omega phi) u (y_at A omega phi u)
  ∧ derivable_pt_lim (y_at A omega phi) u (- (omega * omega) * x_at A omega phi u)%R.
Proof.
  split; [reflexivity|]. split; [reflexivity|].
  set (arg := (mult_real_fct omega id + fct_cte phi)%F).
  assert (derivable_pt_lim arg u (omega * 1 + 0)%R) as Hlin.
  { apply derivable_pt_lim_plus.
    - apply derivable_pt_lim_scal, derivable_pt_lim_id.
    - apply derivable_pt_lim_const. }
  split.
  - unfold y_at.
    replace (- A * omega * sin (omega * u + phi))%R
      with (A * (- sin (arg u) * (omega * 1 + 0)))%R
      by (unfold arg, plus_fct, mult_real_fct, fct_cte, id; ring).
    change (x_at A omega phi) with (mult_real_fct A (comp cos arg)).
    apply derivable_pt_lim_scal, derivable_pt_lim_comp;
      [exact Hlin | apply derivable_pt_lim_cos].
  - unfold x_at.
    replace (- (omega * omega) * (A * cos (omega * u + phi)))%R
      with (- A * omega * (cos (arg u) * (omega * 1 + 0)))%R
      by (unfold arg, plus_fct, mult_real_fct, fct_cte, id; ring).
    change (y_at A omega phi) with (mult_real_fct (- A * omega) (comp sin arg)).
    apply derivable_pt_lim_scal, derivable_pt_lim_comp;
      [exact Hlin | apply derivable_pt_lim_sin].
Qed.

(** ** The step size on a [linspace] grid, for any arithmetic *)

(** On a grid [np.linspace(start, stop, N)] with [N > 1] the last sample
    is [stop] itself, not a rounded multiple of the spacing, so the step
    size of cell 8 is [stop / N] computed in the arrays' arithmetic,
    whatever the rounding of the inner grid points. *)
Theorem step_size_on_linspace {T : Type} `{Arith T} (start stop : T) (N : nat) :
  1 < N →
  getlast (linspace start stop N) = Some stop
  ∧ step_size (linspace start stop N) = Some (div stop (of_nat N)).
Proof.
  intros HN.
  assert (getlast (linspace start stop N) = Some stop) as Hlast.
  { unfold getlast. rewrite last_lookup, length_linspace.
    unfold linspace. rewrite (decide_True (P := 1 < N)) by done.
    replace (Nat.pred N) with (N - 1) by lia.
    apply list_lookup_insert_eq. rewrite length_fmap, length_seq. lia. }
  split; [done|]. unfold step_size. rewrite Hlast. simpl.
  by rewrite length_linspace.
Qed.

(** ** Concrete runs of the further properties *)

Lemma trailing_slots_uninitialised_witness :
  ∃ s h x0 y0, step_size [0; 1]%float = Some h
     ∧ cell8 (λ _, 7%float) (λ _, 9%float) 2%float
         [1; 4; 4]%float [3; 4; 4]%float [0; 1]%float = Some s
     ∧ [1; 4; 4]%float !! 0 = Some x0 ∧ [3; 4; 4]%float !! 0 = Some y0
     ∧ length (xE s) = 3 ∧ length (yE s) = 3
     ∧ (∀ k, k < 2 → sample s k = Some (spec_iterate h 2%float k (x0, y0)))
     ∧ (∀ k, 2 ≤ k → k < 3 → xE s !! k = Some 7%float)
     ∧ (∀ k, 2 ≤ k → k < 3 → yE s !! k = Some 9%float).
Proof.
  apply (trailing_slots_uninitialised (λ _, 7%float) (λ _, 9%float) 2%float
           [1; 4; 4]%float [3; 4; 4]%float [0; 1]%float).
  - done.
  - simpl; lia.
  - simpl; lia.
Defined.

Lemma trajectory_restart_witness :
  ∃ s', euler_loop (λ _, 0%float) (λ _, 0%float) 0.5%float 2%float
          [2.5; 0]%float [1; 0]%float [0; 0]%float = Some s'
      ∧ ∀ j, j < 2 → 1 + j < 3 →
          sample s' j
          = sample (Store [1; 2.5; 3]%float [3; 1; -4]%float) (1 + j).
Proof.
  apply (trajectory_restart (λ _, 7%float) (λ _, 9%float) (λ _, 0%float) (λ _, 0%float)
           0.5%float 2%float
           [1; 4; 4]%float [3; 4; 4]%float [0; 1; 2]%float
           [2.5; 0]%float [1; 0]%float [0; 0]%float
           (Store [1; 2.5; 3]%float [3; 1; -4]%float) 1 2.5%float 1%float);
    reflexivity.
Defined.

Lemma trajectory_diverges_witness :
  ∃ K, ∀ jx jy (x y t : list R),
    x !! 0 = Some 1%R → y !! 0 = Some 0%R →
    length x = length t → length y = length t →
    ∃ s, euler_loop jx jy 1%R 1%R x y t = Some s
       ∧ ∀ k, k < length t →
           ∃ p, sample s k = Some p
              ∧ wnorm 1 p = (growth_factor 1 1 ^ k * wnorm 1 (1, 0))%R
              ∧ (K ≤ k → (10 < wnorm 1 p)%R).
Proof.
  apply (trajectory_diverges 1%R 1%R 1%R 0%R 10%R).
  - lra.
  - lra.
  - intros Heq. injection Heq as Heq. lra.
Defined.

Lemma initial_error_propagates_witness :
  ∃ s s', euler_loop (λ _, 0%R) (λ _, 0%R) (1 / 2)%R 3%R
            [1; 0; 0]%R [2; 0; 0]%R [0; 0; 0]%R = Some s
        ∧ euler_loop (λ _, 0%R) (λ _, 0%R) (1 / 2)%R 3%R
            [5; 0; 0]%R [4; 0; 0]%R [0; 0; 0]%R = Some s'
        ∧ ∀ k, k < 3 →
            ∃ p p', sample s k = Some p ∧ sample s' k = Some p'
                  ∧ (p'.1 - p.1, p'.2 - p.2)%R
                      = spec_iterate (1 / 2)%R 3%R k (5 - 1, 4 - 2)%R
                  ∧ wnorm 3 (p'.1 - p.1, p'.2 - p.2)%R
                      = (growth_factor (1 / 2) 3 ^ k * wnorm 3 (5 - 1, 4 - 2))%R.
Proof.
  apply (initial_error_propagates (λ _, 0%R) (λ _, 0%R) (λ _, 0%R) (λ _, 0%R)
           (1 / 2)%R 3%R
           [1; 0; 0]%R [2; 0; 0]%R [5; 0; 0]%R [4; 0; 0]%R [0; 0; 0]%R
           1%R 2%R 5%R 4%R);
    reflexivity.
Defined.

Lemma analytic_solution_on_ellipse_witness :
  (3 * 3 * (2 * cos (3 * 0 + 1) * (2 * cos (3 * 0 + 1)))
     + - (2) * 3 * sin (3 * 0 + 1) * (- (2) * 3 * sin (3 * 0 + 1))
   = 2 * 3 * (2 * 3))%R
  ∧ wnorm 3 (2 * cos (3 * 0 + 1), - (2) * 3 * sin (3 * 0 + 1))%R = Rabs (2 * 3).
Proof.
  apply (analytic_solution_on_ellipse 2%R 3%R 1%R [0%R] 0); reflexivity.
Defined.

Lemma analytic_solution_closes_witness :
  analytic_x 1 (INR 1) 0 (time_grid 100) !! (100 - 1)
    = analytic_x 1 (INR 1) 0 (time_grid 100) !! 0
  ∧ analytic_y 1 (INR 1) 0 (time_grid 100) !! (100 - 1)
    = analytic_y 1 (INR 1) 0 (time_grid 100) !! 0
  ∧ analytic_x 1 (INR 1) 0 (time_grid 100) !! 0 = Some (1 * cos 0)%R
  ∧ analytic_y 1 (INR 1) 0 (time_grid 100) !! 0 = Some (- (1) * INR 1 * sin 0)%R.
Proof.
  apply (analytic_solution_closes 1%R 0%R 1 100). lia.
Defined.

Lemma time_grid_increasing_witness :
  ∃ ti tj, time_grid 100 !! 0 = Some ti ∧ time_grid 100 !! 1 = Some tj
         ∧ (0 <= ti)%R ∧ (ti < tj)%R ∧ (tj <= 2 * PI)%R
         ∧ time_grid 100 !! 0 = Some 0%R
         ∧ time_grid 100 !! (100 - 1) = Some (2 * PI)%R.
Proof.
  apply (time_grid_increasing 100 0 1); lia.
Defined.

Lemma run_cells_sample_count_witness :
  run_cells (λ _, 0%R) (λ _, 0%R) 1%R 1%R 0%R 0 = None
  ∧ ∃ s, run_cells (λ _, 0%R) (λ _, 0%R) 1%R 1%R 0%R 100 = Some s
       ∧ length (xE s) = 100 ∧ length (yE s) = 100
       ∧ sample s 0 = Some (1 * cos 0, - (1) * 1 * sin 0)%R.
Proof.
  split.
  - apply (run_cells_sample_count (λ _, 0%R) (λ _, 0%R) 1%R 1%R 0%R 0). reflexivity.
  - apply (run_cells_sample_count (λ _, 0%R) (λ _, 0%R) 1%R 1%R 0%R 100). lia.
Defined.

Lemma euler_leaves_analytic_orbit_witness :
  ∃ s, run_cells (λ _, 0%R) (λ _, 0%R) 1%R 1%R 0%R 100 = Some s
     ∧ ∀ k, k < 100 →
         ∃ p q, sample s k = Some p
              ∧ sample (Store (analytic_x 1 1 0 (time_grid 100))
                              (analytic_y 1 1 0 (time_grid 100))) k = Some q
              ∧ wnorm 1 q = Rabs (1 * 1)
              ∧ wnorm 1 p
                  = (growth_factor (2 * PI / INR 100) 1 ^ k * Rabs (1 * 1))%R
              ∧ (0 < k → (wnorm 1 q < wnorm 1 p)%R).
Proof.
  apply (euler_leaves_analytic_orbit (λ _, 0%R) (λ _, 0%R) 1%R 1%R 0%R 100).
  - lra.
  - lra.
  - lia.
Defined.

Lemma step_size_on_linspace_witness :
  getlast (linspace 0%float two_pi_f 100) = Some two_pi_f
  ∧ step_size (linspace 0%float two_pi_f 100)
    = Some (div two_pi_f (of_nat 100)).
Proof.
  apply (step_size_on_linspace 0%float two_pi_f 100). lia.
Defined.
